(** * fossil-jellyfish: the Conan recipe and the test-source lister

    A shallow embedding of the two Python files of the repository:

    - [code/tests/tools/wildcard.py], the script that lists the test
      sources of the directory [cases] (module [Wildcard]);
    - [conanfile.py], the Conan recipe [FossilJellyfishConan]
      (module [Conanfile]).

    Python exceptions are values of type [exn]; a computation that may raise
    returns a [result].  The standard-library and Conan functions the two
    files call ([glob.glob], [fnmatch], [os.scandir], [print],
    [conan.tools.files.copy] with [os.walk], [os.makedirs], [filecmp.cmp] and
    [shutil.copy2]) are modelled next to their callers, on POSIX; the
    external build tools ([Meson], [MesonToolchain], [self.run]) are
    parameters.  Symbolic links are not modelled. *)

From Stdlib Require Import Ascii String.
From stdpp Require Import base option list strings gmap fin_maps sorting.

Open Scope string_scope.
Open Scope list_scope.

#[local] Set Warnings "-register-all".

(** ** Exceptions and results *)

Record exn := Exn { exn_class : string; exn_msg : string }.

Inductive result (A : Type) :=
| Ok (a : A)
| Err (e : exn).
Arguments Ok {A} a.
Arguments Err {A} e.

#[global] Instance result_ret : MRet result := fun A a => Ok a.
#[global] Instance result_bind : MBind result :=
  fun A B k r => match r with Ok a => k a | Err e => Err e end.

(** [try: r except cls: handler], where [catches] recognises the instances
    of [cls]. *)
Definition try_except {A} (r : result A) (catches : exn → bool)
    (handler : exn → result A) : result A :=
  match r with
  | Ok a => Ok a
  | Err e => if catches e then handler e else Err e
  end.

(** [raises r cls]: the computation ended with an exception of class [cls]. *)
Definition raises {A} (r : result A) (cls : string) : Prop :=
  match r with Ok _ => False | Err e => exn_class e = cls end.

(** The subclasses of [OSError] that a directory scan can raise. *)
Definition OSError_classes : list string :=
  ["OSError"; "FileNotFoundError"; "NotADirectoryError"; "PermissionError"].

Definition is_OSError (e : exn) : bool :=
  bool_decide (exn_class e ∈ OSError_classes).

(** ** Strings *)

(** [ends_with suf s]: the string [s] ends in [suf]. *)
Definition ends_with (suf s : string) : Prop := ∃ pre, s = pre +:+ suf.

Fixpoint ends_withb (suf s : string) : bool :=
  String.eqb s suf
  || match s with "" => false | String _ s' => ends_withb suf s' end.

#[global] Instance ends_with_dec suf s : Decision (ends_with suf s).
Proof.
  unfold ends_with. induction s as [|c s IH].
  - destruct (decide ("" = suf)) as [<- | Hne]; [left; by exists "" | right].
    intros [[|d pre] H]; [by apply Hne | discriminate H].
  - destruct (decide (String c s = suf)) as [<- | Hne]; [left; by exists "" |].
    destruct IH as [IH | IH]; [left | right].
    + destruct IH as [pre ->]. by exists (String c pre).
    + intros [[|d pre] H]; [by apply Hne |].
      injection H as -> ->. apply IH. by exists pre.
Defined.

(** The characters [fnmatch] and [glob] treat as wildcards. *)
Definition is_magic (c : ascii) : bool :=
  Ascii.eqb c "*" || Ascii.eqb c "?" || Ascii.eqb c "[".

Fixpoint has_magic (s : string) : bool :=
  match s with
  | "" => false
  | String c s' => is_magic c || has_magic s'
  end.

(** [fnmatch.fnmatchcase name pat] for patterns made of literal characters,
    [*] (any run of characters, [/] included) and [?] (one character).
    Bracket classes do not occur in the patterns of this repository. *)
Fixpoint fnmatchcase_pat (pat : string) : string → bool :=
  match pat with
  | "" => fun name => bool_decide (name = "")
  | String c pat' =>
      if Ascii.eqb c "*" then
        fix star (name : string) : bool :=
          fnmatchcase_pat pat' name
          || match name with "" => false | String _ name' => star name' end
      else if Ascii.eqb c "?" then
        fun name =>
          match name with "" => false | String _ name' => fnmatchcase_pat pat' name' end
      else
        fun name =>
          match name with
          | "" => false
          | String d name' => Ascii.eqb c d && fnmatchcase_pat pat' name'
          end
  end.

Definition fnmatchcase (name pat : string) : bool := fnmatchcase_pat pat name.

(** [fnmatch.filter(names, pat)] on POSIX, where [normcase] is the identity. *)
Definition fnmatch_filter (names : list string) (pat : string) : list string :=
  List.filter (fun name => fnmatchcase name pat) names.

(** ** The file system seen by the lister

    A directory keeps its entries in the order in which [os.scandir]
    enumerates them. *)

Inductive node :=
| File (content : string)
| Dir (entries : list (string * node)).

Fixpoint assoc (name : string) (es : list (string * node)) : option node :=
  match es with
  | [] => None
  | (n, x) :: es' => if String.eqb n name then Some x else assoc name es'
  end.

(** Resolution of a relative path, given by its components, from the
    working directory. *)
Fixpoint resolve (p : list string) (cwd : node) : option node :=
  match p with
  | [] => Some cwd
  | c :: p' =>
      match cwd with
      | File _ => None
      | Dir es =>
          match assoc c es with
          | Some x => resolve p' x
          | None => None
          end
      end
  end.

Module Wildcard.

(** [os.path.split] of a path with a single separator-free directory part:
    the text before the last [/] and the text after it. *)
Fixpoint split_last_slash (s : string) : option (string * string) :=
  match s with
  | "" => None
  | String c s' =>
      match split_last_slash s' with
      | Some (h, t) => Some (String c h, t)
      | None => if Ascii.eqb c "/" then Some ("", s') else None
      end
  end.

Definition os_path_split (p : string) : string * string :=
  match split_last_slash p with
  | Some (h, t) => (h, t)
  | None => ("", p)
  end.

(** [os.path.join(dirname, name)] for a non-empty relative [dirname] without
    trailing separator and a relative [name]. *)
Definition os_path_join (dirname name : string) : string :=
  dirname +:+ "/" +:+ name.

(** [os.scandir(dirname)], for a [dirname] of one component, yielding the
    entry names.  It raises a subclass of [OSError] when [dirname] does not
    exist or is not a directory. *)
Definition os_scandir (cwd : node) (dirname : string) : result (list string) :=
  match resolve [dirname] cwd with
  | None => Err (Exn "FileNotFoundError" dirname)
  | Some (File _) => Err (Exn "NotADirectoryError" dirname)
  | Some (Dir es) => Ok (map fst es)
  end.

(** [glob._iterdir]: the scan is wrapped in [try: ... except OSError: return],
    so a failed scan yields no name. *)
Definition _iterdir (cwd : node) (dirname : string) : result (list string) :=
  try_except (os_scandir cwd dirname) is_OSError (fun _ => Ok []).

(** [glob._ishidden]: [path[0] == '.']. *)
Definition _ishidden (path : string) : bool :=
  match path with
  | String c _ => Ascii.eqb c "."
  | "" => false
  end.

(** [glob._glob1] with [include_hidden=False]. *)
Definition _glob1 (cwd : node) (dirname pattern : string) : result (list string) :=
  names ← _iterdir cwd dirname;
  let names :=
    if negb (_ishidden pattern)
    then List.filter (fun x => negb (_ishidden x)) names
    else names in
  mret (fnmatch_filter names pattern).

(** [glob.glob(pathname)] along the branch of [glob._iglob] taken when the
    directory part has no wildcard and the last component has one: the names
    of [_glob1] joined to the directory part. *)
Definition glob (cwd : node) (pathname : string) : result (list string) :=
  let '(dirname, basename) := os_path_split pathname in
  names ← _glob1 cwd dirname basename;
  mret (map (os_path_join dirname) names).

(** Line 4 of the script:
    [source_files = glob.glob("cases/*.c") + glob.glob("cases/*.cpp")]. *)
Definition source_files (cwd : node) : result (list string) :=
  cs ← glob cwd "cases/*.c";
  cpps ← glob cwd "cases/*.cpp";
  mret (cs ++ cpps).

(** [print(file)]: the line is written to the standard output, which may
    raise: [UnicodeEncodeError] for a name that a strict standard output
    cannot encode, [BrokenPipeError] or another [OSError] when the output
    cannot be written.  What the standard output does with a line depends on
    the environment. *)
Definition print (stdout : string → result unit) (line : string) (out : list string)
    : result (list string) :=
  _ ← stdout line; mret (out ++ [line]).

(** One turn of the loop: nothing more is printed once a turn has raised. *)
Definition print_next (stdout : string → result unit)
    (acc : result (list string)) (file : string) : result (list string) :=
  out ← acc; print stdout file out.

(** Lines 7-8: [for file in source_files: print(file)]; the value is the list
    of lines written to the standard output when the loop completes. *)
Definition main (stdout : string → result unit) (cwd : node) : result (list string) :=
  files ← source_files cwd;
  foldl (print_next stdout) (Ok []) files.

(** The entry names of the directory [cases], in enumeration order; no name
    when [cases] is missing or is not a directory. *)
Definition cases_names (cwd : node) : list string :=
  match resolve ["cases"] cwd with
  | Some (Dir es) => map fst es
  | _ => []
  end.

(** The names the lister keeps for a suffix: not hidden, ending in it. *)
Definition listed (suf name : string) : Prop :=
  _ishidden name = false ∧ ends_with suf name.

Definition cases_missing (cwd : node) : Prop := resolve ["cases"] cwd = None.
Definition cases_empty (cwd : node) : Prop := resolve ["cases"] cwd = Some (Dir []).

(** Lexicographic order of a list of paths. *)
Fixpoint sorted_paths (l : list string) : bool :=
  match l with
  | [] => true
  | x :: l' =>
      match l' with
      | [] => true
      | y :: _ => String.leb x y && sorted_paths l'
      end
  end.

Definition dir_abct : list (string * node) :=
  [("a.c", File ""); ("b.cpp", File ""); ("c.txt", File "");
   ("sub", Dir [("d.c", File "")])].

(** Working directories used as test inputs. *)
Definition cwd_without_cases : node := Dir [("meson.build", File "")].
Definition cwd_empty_cases : node := Dir [("cases", Dir [])].
Definition cwd_b_c_a_cpp : node :=
  Dir [("cases", Dir [("b.c", File ""); ("a.cpp", File "")])].
Definition cwd_a_cpp_b_c : node :=
  Dir [("cases", Dir [("a.cpp", File ""); ("b.c", File "")])].
Definition cwd_abct : node := Dir [("cases", Dir dir_abct)].
Definition cwd_hidden_c : node := Dir [("cases", Dir [(".draft.c", File "")])].
Definition cwd_grown : node :=
  Dir [("cases", Dir [("z.c", File ""); ("b.c", File ""); ("m.c", File "");
                      ("a.cpp", File ""); ("k.cpp", File "")])].

End Wildcard.

(** ** The Conan recipe *)

Module folders.
(** [self.folders]: the two attributes the recipe sets. *)
Record t := mk { source : string; build : string }.
End folders.

Module cpp_info.
(** [self.cpp_info]: the two attributes the recipe sets. *)
Record t := mk { libs : list string; includedirs : list string }.
End cpp_info.

Module Conanfile.

(** A path is the list of its components, from the directory the recipe
    runs in. *)
Abbreviation path := (list string).

(** An entry of the file system: a regular file, with its content and its
    modification time, or a directory. *)
Inductive entry :=
| Regular (content : string) (mtime : nat)
| Directory.

(** The file system: the entries by path. *)
Record filesystem := FS { entries : gmap (list string) entry }.

(** [files !! p] is the content of the regular file at [p]. *)
#[global] Instance filesystem_lookup : Lookup (list string) string filesystem :=
  fun p files =>
    match entries files !! p with
    | Some (Regular c _) => Some c
    | _ => None
    end.

(** *** Class attributes of [FossilJellyfishConan] *)

Definition name : string := "fossil_jellyfish".
Definition version : string := "0.1.4".
Definition license : string := "MPL-2.0".
Definition author : string := "Fossil Logic <michaelbrockus@gmail.com>".
Definition url : string := "https://github.com/fossillogic/fossil-jellyfish".
Definition description : string :=
  "Fossil Jellyfish is a lightweight, portable Truthful Intelligence and AI library written in pure C with zero external dependencies.".
Definition topics : list string :=
  ["c"; "ti"; "chat"; "nlp"; "cpp"; "meson"; "conan-recipe"; "mesonbuild"; "ninja-build"].
Definition settings : list string := ["os"; "compiler"; "build_type"; "arch"].
Definition options : list (string * list bool) := [("shared", [true; false])].
Definition default_options : list (string * bool) := [("shared", false)].
Definition exports_sources : list string := ["code/**"; "meson.build"; "meson.options"].
Definition generators : string := "PkgConfigDeps".

(** *** The recipe instance and the world it acts on *)

(** The instance attributes the methods read or write. *)
Record conanfile := {
  folders : folders.t;
  cpp_info : cpp_info.t;
  package_folder : path;
}.

(** The calls a method hands to an external tool. *)
Inductive call :=
| ToolchainGenerate
| MesonConfigure
| MesonBuild
| MesonInstall
| SelfRun (cmd : string).

(** The external collaborators: each acts on the file system, may read the
    recipe, and may raise. *)
Record tools := {
  MesonToolchain_generate : conanfile → filesystem → result filesystem;
  Meson_configure : conanfile → filesystem → result filesystem;
  Meson_build : conanfile → filesystem → result filesystem;
  Meson_install : conanfile → filesystem → result filesystem;
  run : conanfile → string → filesystem → result filesystem;
}.

(** The state a method runs in: the recipe object, the file system and the
    external calls issued so far, oldest first. *)
Record world := World {
  self : conanfile;
  fs : filesystem;
  issued : list call;
}.

(** Methods are state transformers that may raise; the effects made before
    an exception stay. *)
Definition M (A : Type) : Type := world → result A * world.

#[global] Instance M_ret : MRet M := fun A a w => (Ok a, w).
#[global] Instance M_bind : MBind M := fun A B k m w =>
  match m w with
  | (Ok a, w') => k a w'
  | (Err e, w') => (Err e, w')
  end.

Definition raise {A} (e : exn) : M A := fun w => (Err e, w).

Definition get_self : M conanfile := fun w => (Ok (self w), w).

Definition set_self (c : conanfile) : M unit :=
  fun w => (Ok tt, World c (fs w) (issued w)).

(** An external call: it is recorded, then the tool acts on the file
    system or raises. *)
Definition external (c : call) (tool : conanfile → filesystem → result filesystem)
    : M unit :=
  fun w =>
    let log := issued w ++ [c] in
    match tool (self w) (fs w) with
    | Ok fs' => (Ok tt, World (self w) fs' log)
    | Err e => (Err e, World (self w) (fs w) log)
    end.



(** *** File operations *)

(** [os.path.isdir(p)]; the empty path is the directory the recipe runs
    in. *)
Definition isdir (files : filesystem) (p : path) : bool :=
  match p with
  | [] => true
  | _ :: _ =>
      match entries files !! p with
      | Some Directory => true
      | _ => false
      end
  end.

Definition put (p : path) (e : entry) (files : filesystem) : filesystem :=
  FS (<[p := e]> (entries files)).

(** The relative name of a file: its components joined by [/]. *)
Fixpoint join_path (rel : path) : string :=
  match rel with
  | [] => ""
  | x :: rest =>
      match rest with
      | [] => x
      | _ :: _ => x +:+ "/" +:+ join_path rest
      end
  end.

(** [os.makedirs(done/todo, exist_ok=True)], the directories down to [done]
    being there: each missing directory is created in turn; a regular file
    in the way raises ([NotADirectoryError] for a parent, [FileExistsError]
    for the last component), the directories made so far staying. *)
Fixpoint makedirs_from (done todo : path) (files : filesystem)
    : result unit * filesystem :=
  match todo with
  | [] => (Ok tt, files)
  | x :: todo' =>
      let p := done ++ [x] in
      match entries files !! p with
      | Some Directory => makedirs_from p todo' files
      | Some (Regular _ _) =>
          (Err (Exn match todo' with
                    | [] => "FileExistsError"
                    | _ :: _ => "NotADirectoryError"
                    end (join_path p)), files)
      | None => makedirs_from p todo' (put p Directory files)
      end
  end.

Definition makedirs (p : path) (files : filesystem) : result unit * filesystem :=
  makedirs_from [] p files.

(** [filecmp.cmp(src, dst)] with the default [shallow=True], for a regular
    file [src] of content [c] and modification time [t]: only regular files
    compare equal; files of the same size and modification time are equal
    without being read; files of different sizes differ; otherwise the
    contents decide. *)
Definition filecmp_cmp (c : string) (t : nat) (dst : entry) : bool :=
  match dst with
  | Regular c' t' =>
      if (String.length c =? String.length c')%nat
      then (t =? t')%nat || String.eqb c c'
      else false
  | Directory => false
  end.

(** [shutil.copy2(src, dst)] for a regular file [src] of content [c] and
    modification time [t], named [basename]: when [dst] is a directory the
    file is copied into it under its own name; the copy keeps the
    modification time; a directory at the final place raises
    [IsADirectoryError]. *)
Definition copy2 (c : string) (t : nat) (basename : string) (dst : path)
    (files : filesystem) : result unit * filesystem :=
  let target := if isdir files dst then dst ++ [basename] else dst in
  match entries files !! target with
  | Some Directory => (Err (Exn "IsADirectoryError" (join_path target)), files)
  | _ => (Ok tt, put target (Regular c t) files)
  end.

(** *** [conan.tools.files.copy] *)

(** [str.lower] on ASCII letters. *)
Definition ascii_lower (c : ascii) : ascii :=
  let n := nat_of_ascii c in
  if (65 <=? n)%nat && (n <=? 90)%nat then ascii_of_nat (n + 32) else c.

Fixpoint lower (s : string) : string :=
  match s with
  | "" => ""
  | String c s' => String (ascii_lower c) (lower s')
  end.

(** [os.path.relpath(p, base)] for a path [p] below [base]. *)
Fixpoint relative_to (base p : path) : option path :=
  match base with
  | [] => Some p
  | b :: base' =>
      match p with
      | [] => None
      | x :: p' => if decide (b = x) then relative_to base' p' else None
      end
  end.

(** [base] and every directory between [base] and the file [base/rel] are
    directories: the walk reaches the file. *)
Fixpoint below_dirs (files : filesystem) (base rel : path) : bool :=
  isdir files base
  && match rel with
     | [] => true
     | x :: rel' =>
         match rel' with
         | [] => true
         | _ :: _ => below_dirs files (base ++ [x]) rel'
         end
     end.

(** The part of the file system at and below [src]. *)
Definition subtree (files : filesystem) (src : path) : filesystem :=
  FS (filter (fun pe => src `prefix_of` pe.1) (entries files)).

(** One entry of the walk: the relative name of a regular file the walk
    reaches. *)
Definition walk_entry (sub : filesystem) (src : path) (pe : path * entry)
    : option path :=
  match pe.2 with
  | Regular _ _ =>
      match relative_to src pe.1 with
      | Some (x :: rel) =>
          if below_dirs sub src (x :: rel) then Some (x :: rel) else None
      | _ => None
      end
  | Directory => None
  end.

(** [os.walk(src)] as [copy] uses it: the relative names of the regular
    files below [src], none when [src] is not a directory.  [copy] would skip
    a walked directory whose name is the string [dst]; the recipe passes a
    relative [src] and the absolute package folder in [dst], so that no
    walked name equals [dst] and nothing is skipped.  The order of the walk
    is the order of the file system. *)
Definition walk (files : filesystem) (src : path) : list path :=
  let sub := subtree files src in
  omap (walk_entry sub src) (map_to_list (entries sub)).

(** The files [copy] selects: those whose lower-cased relative name matches
    the lower-cased pattern ([ignore_case=True] is the default). *)
Definition files_to_copy (pattern : string) (src : path) (files : filesystem)
    : list path :=
  List.filter (fun rel => fnmatchcase (lower (join_path rel)) (lower pattern))
              (walk files src).

(** The copy of one file of content [c] and modification time [t] to
    [dst/rel], once the parent folder is there: the file is copied unless
    the destination exists and compares equal ([overwrite_equal=False] is
    the default). *)
Definition place (c : string) (t : nat) (dst rel : path) (files : filesystem)
    : result unit * filesystem :=
  match entries files !! (dst ++ rel) with
  | Some e =>
      if filecmp_cmp c t e then (Ok tt, files)
      else copy2 c t (List.last rel "") (dst ++ rel) files
  | None => copy2 c t (List.last rel "") (dst ++ rel) files
  end.



(** One file of [copy]: the parent folder of the destination is made, then
    the file is copied to the same relative name ([keep_path=True] is the
    default). *)
Definition copy_one (src dst rel : path) (files : filesystem)
    : result unit * filesystem :=
  match entries files !! (src ++ rel) with
  | Some (Regular c t) =>
      match makedirs (dst ++ removelast rel) files with
      | (Err e, files') => (Err e, files')
      | (Ok _, files') => place c t dst rel files'
      end
  | _ => (Err (Exn "FileNotFoundError" (join_path (src ++ rel))), files)
  end.

Fixpoint copy_all (src dst : path) (rels : list path) (files : filesystem)
    : result unit * filesystem :=
  match rels with
  | [] => (Ok tt, files)
  | rel :: rels' =>
      match copy_one src dst rel files with
      | (Ok _, files') => copy_all src dst rels' files'
      | (Err e, files') => (Err e, files')
      end
  end.

(** [copy(conanfile, pattern, src, dst)]: the files to copy are found
    first, then copied one by one; an error of a file operation ends the
    copy, what was copied before staying. *)
Definition copy (pattern : string) (src dst : path) : M unit :=
  fun w =>
    if decide (src = dst) then
      (Err (Exn "ConanException"
              "copy() 'src' and 'dst' arguments must have different values"), w)
    else
      let '(r, files') :=
        copy_all src dst (files_to_copy pattern src (fs w)) (fs w) in
      (r, World (self w) files' (issued w)).

(** What [copy] leaves at the place [dst/name] of a regular file of content
    [c] and modification time [t], given what was there before: the copy
    when the place was free; the file that was there when it compares equal,
    and the copy otherwise; and when a directory was there, the copy inside
    it, under the same name. *)
Definition header_copied (c : string) (t : nat) (dst : path) (name : string)
    (before after : filesystem) : Prop :=
  match entries before !! (dst ++ [name]) with
  | None => entries after !! (dst ++ [name]) = Some (Regular c t)
  | Some (Regular c' t') =>
      entries after !! (dst ++ [name])
      = Some (if filecmp_cmp c t (Regular c' t') then Regular c' t' else Regular c t)
  | Some Directory =>
      entries after !! (dst ++ [name]) = Some Directory
      ∧ entries after !! (dst ++ [name; name]) = Some (Regular c t)
  end.

(** The regular files below [dir], with their contents. *)
Definition regular_files_below (dir : path) (files : filesystem)
    : list (path * string) :=
  omap (fun pe => match pe.2 with
                  | Regular c _ =>
                      if bool_decide (dir `prefix_of` pe.1) then Some (pe.1, c) else None
                  | Directory => None
                  end)
       (map_to_list (entries files)).

(** *** The methods, in the order of the class body *)

Section Methods.
Variable t : tools.

(** Lines 22-25. *)
Definition layout : M unit :=
  c ← get_self;
  set_self {| folders := folders.mk "." (folders.build (folders c));
              cpp_info := cpp_info c; package_folder := package_folder c |};;
  c ← get_self;
  set_self {| folders := folders.mk (folders.source (folders c)) "builddir";
              cpp_info := cpp_info c; package_folder := package_folder c |}.

(** Lines 27-30. *)
Definition generate : M unit :=
  external ToolchainGenerate (MesonToolchain_generate t).

(** Lines 32-36. *)
Definition build : M unit :=
  external MesonConfigure (Meson_configure t);;
  external MesonBuild (Meson_build t).

(** [self.run(cmd)]. *)
Definition self_run (cmd : string) : M unit :=
  external (SelfRun cmd) (fun c => run t c cmd).

(** Lines 38-39: the first definition of [source]. *)
Definition source_38 : M unit :=
  self_run ("git clone --branch v" +:+ version +:+ " --depth 1 " +:+ url).

(** The header directory of the source tree and of the package. *)
Definition header_src : path := ["code"; "logic"; "fossil"; "ai"].
Definition header_dst (c : conanfile) : path :=
  package_folder c ++ ["include"; "fossil"; "ai"].

(** Lines 41-49. *)
Definition package : M unit :=
  external MesonInstall (Meson_install t);;
  c ← get_self;
  copy "*.h" header_src (header_dst c).

(** Lines 51-54. *)
Definition package_info : M unit :=
  c ← get_self;
  set_self {| folders := folders c;
              cpp_info := cpp_info.mk ["fossil_jellyfish"] (cpp_info.includedirs (cpp_info c));
              package_folder := package_folder c |};;
  c ← get_self;
  set_self {| folders := folders c;
              cpp_info := cpp_info.mk (cpp_info.libs (cpp_info c)) ["include"];
              package_folder := package_folder c |}.

(** Lines 56-57: the second definition of [source]. *)
Definition source_56 : M unit :=
  self_run ("git clone --branch v" +:+ version +:+ " " +:+ url).

(** The [def] statements of the class body, in source order. *)
Definition class_body : list (string * M unit) :=
  [("layout", layout); ("generate", generate); ("build", build);
   ("source", source_38); ("package", package);
   ("package_info", package_info); ("source", source_56)].

(** Executing the class body binds each name in turn in the class
    namespace; a later binding of a name replaces the earlier one. *)
Definition class_namespace : gmap string (M unit) :=
  foldl (fun ns d => <[d.1 := d.2]> ns) ∅ class_body.

(** A method call [self.<method>()]: the attribute is looked up in the class
    namespace. *)
Definition call_method (method : string) : M unit :=
  match class_namespace !! method with
  | Some m => m
  | None => raise (Exn "AttributeError" method)
  end.

(** [self.source()]. *)
Definition source : M unit := call_method "source".

End Methods.

(** *** Test inputs *)

(** Tools that succeed and leave the file system as it is: in particular an
    install step that installs no header. *)
Definition idle_tools : tools := {|
  MesonToolchain_generate := fun _ files => Ok files;
  Meson_configure := fun _ files => Ok files;
  Meson_build := fun _ files => Ok files;
  Meson_install := fun _ files => Ok files;
  run := fun _ _ files => Ok files;
|}.


Definition fresh_conanfile : conanfile := {|
  folders := folders.mk "" "";
  cpp_info := cpp_info.mk [] [];
  package_folder := ["pkg"];
|}.

Definition source_tree : filesystem :=
  FS (list_to_map
    [(["code"], Directory);
     (["code"; "logic"], Directory);
     (["code"; "logic"; "fossil"], Directory);
     (["code"; "logic"; "fossil"; "ai"], Directory);
     (["code"; "logic"; "fossil"; "ai"; "jellyfish.h"], Regular "/* jellyfish */" 7);
     (["code"; "logic"; "fossil"; "ai"; "framework.h"], Regular "/* framework */" 8);
     (["code"; "logic"; "fossil"; "ai"; "jellyfish.c"], Regular "int x;" 9);
     (["meson.build"], Regular "project('fossil')" 5)]).

(** A run in which nothing has happened yet. *)
Definition fresh_world : world := World fresh_conanfile source_tree [].

(** A package folder that already holds, in the place of the header
    [jellyfish.h], another file of the same size and modification time. *)
Definition stale_tree : filesystem :=
  FS (list_to_map
    [(["code"], Directory);
     (["code"; "logic"], Directory);
     (["code"; "logic"; "fossil"], Directory);
     (["code"; "logic"; "fossil"; "ai"], Directory);
     (["code"; "logic"; "fossil"; "ai"; "jellyfish.h"], Regular "/* jellyfish */" 7);
     (["pkg"], Directory);
     (["pkg"; "include"], Directory);
     (["pkg"; "include"; "fossil"], Directory);
     (["pkg"; "include"; "fossil"; "ai"], Directory);
     (["pkg"; "include"; "fossil"; "ai"; "jellyfish.h"], Regular "/* JELLYFISH */" 7)]).

Definition stale_world : world := World fresh_conanfile stale_tree [].





(** A run whose only header has an upper-case extension. *)
Definition upper_case_world : world :=
  World fresh_conanfile
    (FS (list_to_map
      [(["code"], Directory);
       (["code"; "logic"], Directory);
       (["code"; "logic"; "fossil"], Directory);
       (["code"; "logic"; "fossil"; "ai"], Directory);
       (["code"; "logic"; "fossil"; "ai"; "API.H"], Regular "/* api */" 3)]))
    [].

End Conanfile.



(** * Properties *)

(** ** Strings and patterns *)

Lemma ends_withb_spec suf s : ends_withb suf s = true ↔ ends_with suf s.
Proof.
  unfold ends_with. induction s as [|c s IH]; cbn [ends_withb].
  - rewrite orb_false_r, String.eqb_eq. split.
    + intros <-. by exists "".
    + intros [pre H]. destruct pre; simpl in H; [done | discriminate].
  - rewrite orb_true_iff, String.eqb_eq, IH. split.
    + intros [<- | [pre ->]]; [by exists "" | by exists (String c pre)].
    + intros [[|d pre] H]; simpl in H; [by left |].
      injection H as -> ->. right. by exists pre.
Qed.

(** No name ends both in [.c] and in [.cpp]. *)
Lemma ends_c_not_cpp s : ends_with ".c" s → ends_with ".cpp" s → False.
Proof.
  rewrite <- !ends_withb_spec. induction s as [|c s IH]; [done |].
  cbn [ends_withb]. rewrite !orb_true_iff, !String.eqb_eq.
  intros [H1 | H1] [H2 | H2]; [congruence | | | by apply IH].
  - injection H1 as -> ->. done.
  - injection H2 as -> ->. done.
Qed.

(** A pattern without wildcard matches itself only. *)
Lemma fnmatchcase_literal lit name :
  has_magic lit = false → fnmatchcase name lit = String.eqb name lit.
Proof.
  unfold fnmatchcase. revert name. induction lit as [|c lit IH]; intros name Hm.
  - simpl. destruct name; by simpl.
  - simpl in Hm. apply orb_false_elim in Hm as [Hc Hm].
    unfold is_magic in Hc.
    apply orb_false_elim in Hc as [Hc _]. apply orb_false_elim in Hc as [Hs Hq].
    simpl. rewrite Hs, Hq. destruct name as [|d name]; simpl; [done |].
    rewrite IH by done. rewrite (Ascii.eqb_sym c d). done.
Qed.

(** The pattern [*lit], with [lit] free of wildcards, matches the names that
    end in [lit]. *)
Lemma fnmatchcase_star_literal lit name :
  has_magic lit = false → fnmatchcase name ("*" +:+ lit) = ends_withb lit name.
Proof.
  intros Hm. unfold fnmatchcase. simpl.
  induction name as [|d name IH]; simpl.
  - f_equal. apply (fnmatchcase_literal lit "" Hm).
  - rewrite IH. f_equal. apply (fnmatchcase_literal lit (String d name) Hm).
Qed.

Lemma string_app_assoc (a b c : string) : a +:+ (b +:+ c) = (a +:+ b) +:+ c.
Proof.
  induction a as [|x a IH]; [done |].
  change (String x (a +:+ (b +:+ c)) = String x ((a +:+ b) +:+ c)). by rewrite IH.
Qed.

Lemma ends_with_prepend suf pre s : ends_with suf s → ends_with suf (pre +:+ s).
Proof.
  intros [k ->]. exists (pre +:+ k). apply string_app_assoc.
Qed.

Lemma list_filter_decide {A} (f : A → bool) (P : A → Prop) `{!∀ x, Decision (P x)}
    (l : list A) :
  (∀ x, f x = true ↔ P x) → List.filter f l = filter P l.
Proof.
  intros Hf. induction l as [|x l IH]; [done |].
  simpl. rewrite filter_cons, IH. destruct (decide (P x)) as [HP | HP].
  - apply Hf in HP. by rewrite HP.
  - destruct (f x) eqn:E; [| done]. apply Hf in E. done.
Qed.

Lemma list_filter_twice {A} (f g : A → bool) (l : list A) :
  List.filter f (List.filter g l) = List.filter (fun x => g x && f x) l.
Proof.
  induction l as [|x l IH]; [done |].
  simpl. destruct (g x); simpl; [destruct (f x) |]; by rewrite IH.
Qed.

(** ** The lister *)

Module WildcardFacts.
Import Wildcard.

Lemma iterdir_cases cwd : _iterdir cwd "cases" = Ok (cases_names cwd).
Proof.
  unfold _iterdir, os_scandir, cases_names.
  destruct (resolve ["cases"] cwd) as [[c | es] |]; reflexivity.
Qed.

Lemma glob1_cases cwd suf :
  has_magic suf = false →
  _glob1 cwd "cases" ("*" +:+ suf) = Ok (filter (listed suf) (cases_names cwd)).
Proof.
  intros Hm. unfold _glob1. rewrite iterdir_cases. simpl. f_equal.
  unfold fnmatch_filter. rewrite list_filter_twice.
  apply list_filter_decide. intros name.
  change (String "*" suf) with ("*" +:+ suf).
  rewrite fnmatchcase_star_literal by done.
  rewrite andb_true_iff, negb_true_iff, ends_withb_spec. unfold listed. tauto.
Qed.

Lemma glob_cases_c cwd :
  glob cwd "cases/*.c"
  = Ok (map (os_path_join "cases") (filter (listed ".c") (cases_names cwd))).
Proof.
  unfold glob. change (os_path_split "cases/*.c") with ("cases", "*" +:+ ".c").
  cbv beta iota. by rewrite glob1_cases.
Qed.

Lemma glob_cases_cpp cwd :
  glob cwd "cases/*.cpp"
  = Ok (map (os_path_join "cases") (filter (listed ".cpp") (cases_names cwd))).
Proof.
  unfold glob. change (os_path_split "cases/*.cpp") with ("cases", "*" +:+ ".cpp").
  cbv beta iota. by rewrite glob1_cases.
Qed.

Lemma source_files_eq cwd :
  source_files cwd
  = Ok (map (os_path_join "cases") (filter (listed ".c") (cases_names cwd))
        ++ map (os_path_join "cases") (filter (listed ".cpp") (cases_names cwd))).
Proof.
  unfold source_files. by rewrite glob_cases_c, glob_cases_cpp.
Qed.

Lemma print_loop_raised stdout e (files : list string) :
  foldl (print_next stdout) (Err e) files = Err e.
Proof. induction files as [|f files IH]; [done |]. apply IH. Qed.

(** The loop prints every line when the standard output takes them all, and
    otherwise stops with the exception the output raised for a line. *)
Lemma print_loop stdout (files out : list string) :
  (Forall (fun p => stdout p = Ok tt) files ∧
   foldl (print_next stdout) (Ok out) files = Ok (out ++ files))
  ∨ (∃ p e, p ∈ files ∧ stdout p = Err e ∧
     foldl (print_next stdout) (Ok out) files = Err e).
Proof.
  revert out. induction files as [|f files IH]; intros out.
  - left. split; [done |]. by rewrite app_nil_r.
  - change (foldl (print_next stdout) (Ok out) (f :: files))
      with (foldl (print_next stdout) (print stdout f out) files).
    unfold print. destruct (stdout f) as [[] | e] eqn:Hf.
    + change (_ ← Ok (); mret (out ++ [f])) with (Ok (out ++ [f]) : result (list string)).
      destruct (IH (out ++ [f])) as [[Hall Hrun] | (p & e & Hp & Hbad & Hrun)].
      * left. split; [by constructor |]. by rewrite Hrun, <- app_assoc.
      * right. exists p, e. split_and!; [by right | done | done].
    + right. exists f, e. split_and!; [by left | done |].
      change (_ ← Err e; mret (out ++ [f])) with (Err e : result (list string)).
      apply print_loop_raised.
Qed.

Lemma main_eq stdout cwd :
  main stdout cwd
  = foldl (print_next stdout) (Ok [])
      (map (os_path_join "cases") (filter (listed ".c") (cases_names cwd))
       ++ map (os_path_join "cases") (filter (listed ".cpp") (cases_names cwd))).
Proof. unfold main. by rewrite source_files_eq. Qed.

End WildcardFacts.

Section ListerClaims.
Import Wildcard WildcardFacts.

Lemma listed_paths_end suf names x :
  x ∈ map (os_path_join "cases") (filter (listed suf) names) → ends_with suf x.
Proof.
  intros [y [-> Hy]]%list_elem_of_fmap.
  apply list_elem_of_filter in Hy as [[_ Hy] _].
  unfold os_path_join. by do 2 apply ends_with_prepend.
Qed.

(** C3 (amended).  The lister returns the paths [cases/<name>] of the entries
    directly inside [cases] whose names do not start with a dot and end in
    [.c], in the order in which the directory enumerates them, followed by
    those whose names end in [.cpp], in enumeration order again; the result
    is not sorted.  For a directory holding [a.c], [b.cpp], [c.txt] and
    [sub/d.c], enumerated in any order, it returns exactly
    [cases/a.c; cases/b.cpp]. *)
Theorem source_files_enumeration_order :
  (∀ cwd,
     source_files cwd
     = Ok (map (os_path_join "cases")
             (filter (listed ".c") (cases_names cwd)
              ++ filter (listed ".cpp") (cases_names cwd))))
  ∧ (∀ cwd es,
       resolve ["cases"] cwd = Some (Dir es) →
       es ≡ₚ dir_abct →
       source_files cwd = Ok ["cases/a.c"; "cases/b.cpp"]).
Proof.
  split.
  - intros cwd. by rewrite source_files_eq, map_app.
  - intros cwd es Hres Hperm. rewrite source_files_eq.
    unfold cases_names. rewrite Hres.
    assert (Hnames : map fst es ≡ₚ ["a.c"; "b.cpp"; "c.txt"; "sub"]).
    { by rewrite Hperm. }
    assert (Hc : filter (listed ".c") (map fst es) = ["a.c"]).
    { apply Permutation_singleton_r. by rewrite Hnames. }
    assert (Hcpp : filter (listed ".cpp") (map fst es) = ["b.cpp"]).
    { apply Permutation_singleton_r. by rewrite Hnames. }
    by rewrite Hc, Hcpp.
Qed.

Lemma source_files_enumeration_order_witness :
  resolve ["cases"] cwd_abct = Some (Dir dir_abct)
  ∧ dir_abct ≡ₚ dir_abct
  ∧ source_files cwd_abct = Ok ["cases/a.c"; "cases/b.cpp"].
Proof.
  split; [reflexivity |]. split; [reflexivity |].
  apply (proj2 source_files_enumeration_order cwd_abct dir_abct); reflexivity.
Defined.

(** C3 (counterexample).  With [b.c] and [a.cpp] in [cases], in either
    enumeration order, the result is [cases/b.c; cases/a.cpp], which is not
    in lexicographic order; and an entry [.draft.c], whose name ends in
    [.c], is not listed. *)
Lemma source_files_not_sorted :
  source_files cwd_b_c_a_cpp = Ok ["cases/b.c"; "cases/a.cpp"]
  ∧ source_files cwd_a_cpp_b_c = Ok ["cases/b.c"; "cases/a.cpp"]
  ∧ sorted_paths ["cases/b.c"; "cases/a.cpp"] = false
  ∧ source_files cwd_hidden_c = Ok [].
Proof. repeat split; reflexivity. Qed.

(** C10.  In the result of the lister every path that ends in [.c] stands
    before every path that ends in [.cpp]. *)
Theorem c_paths_before_cpp_paths cwd l i j p q :
  source_files cwd = Ok l →
  l !! i = Some p → l !! j = Some q →
  ends_with ".c" p → ends_with ".cpp" q →
  i < j.
Proof.
  rewrite source_files_eq. intros [= <-] Hi Hj Hp Hq.
  set (cs := map (os_path_join "cases") (filter (listed ".c") (cases_names cwd))) in *.
  set (cpps := map (os_path_join "cases") (filter (listed ".cpp") (cases_names cwd))) in *.
  apply lookup_app_Some in Hi as [Hi | [Hlen Hi]].
  - apply lookup_app_Some in Hj as [Hj | [Hlen Hj]].
    + exfalso. apply (ends_c_not_cpp q); [| done].
      eapply listed_paths_end, list_elem_of_lookup_2, Hj.
    + apply lookup_lt_Some in Hi. lia.
  - exfalso. apply (ends_c_not_cpp p); [done |].
    eapply listed_paths_end, list_elem_of_lookup_2, Hi.
Qed.

Lemma c_paths_before_cpp_paths_witness :
  source_files cwd_abct = Ok ["cases/a.c"; "cases/b.cpp"]
  ∧ ends_with ".c" "cases/a.c" ∧ ends_with ".cpp" "cases/b.cpp"
  ∧ 0 < 1.
Proof.
  assert (Hc : ends_with ".c" "cases/a.c") by (by exists "cases/a").
  assert (Hcpp : ends_with ".cpp" "cases/b.cpp") by (by exists "cases/b").
  split; [reflexivity |]. split; [exact Hc |]. split; [exact Hcpp |].
  exact (c_paths_before_cpp_paths cwd_abct ["cases/a.c"; "cases/b.cpp"] 0 1
           "cases/a.c" "cases/b.cpp" eq_refl eq_refl eq_refl Hc Hcpp).
Defined.

(** C5 (amended).  Listing has no failure mode: in every state of the
    working directory, with or without [cases], [source_files] is a list,
    empty when [cases] is missing.  The script then fails only in [print]:
    an exception it raises is the one the standard output raised for one of
    the listed paths; when the output takes every listed path, the script
    prints exactly the list; with [cases] missing nothing is printed and
    nothing raised. *)
Theorem lister_fails_in_print_only stdout cwd :
  ∃ l,
    source_files cwd = Ok l
    ∧ (Forall (fun p => stdout p = Ok tt) l → main stdout cwd = Ok l)
    ∧ (∀ e, main stdout cwd = Err e → ∃ p, p ∈ l ∧ stdout p = Err e)
    ∧ (cases_missing cwd → l = [] ∧ main stdout cwd = Ok []).
Proof.
  rewrite main_eq, source_files_eq. eexists. split; [done |].
  set (l := map _ _ ++ map _ _).
  destruct (print_loop stdout l []) as [[Hall ->] | (p & e & Hp & Hbad & ->)].
  - split_and!; [done | done |].
    unfold cases_missing, cases_names in *. subst l. by intros ->.
  - split_and!.
    + intros Hall. rewrite Forall_forall in Hall. apply Hall in Hp. congruence.
    + intros e' [= <-]. eauto.
    + unfold cases_missing, cases_names in *. subst l. intros Hmiss.
      rewrite Hmiss in Hp. by apply elem_of_nil in Hp.
Qed.

Lemma lister_fails_in_print_only_witness :
  cases_missing cwd_without_cases
  ∧ source_files cwd_without_cases = Ok []
  ∧ main (fun _ => Err (Exn "BrokenPipeError" "")) cwd_without_cases = Ok [].
Proof.
  split; [reflexivity |]. split; [reflexivity |].
  destruct (lister_fails_in_print_only (fun _ => Err (Exn "BrokenPipeError" ""))
              cwd_without_cases) as (l & _ & _ & _ & Hmissing).
  apply Hmissing. reflexivity.
Defined.

(** C5 (counterexample).  Without a directory [cases] the lister returns
    the empty list; no [DirectoryNotFoundError] is raised. *)
Lemma missing_cases_not_an_error :
  cases_missing cwd_without_cases
  ∧ source_files cwd_without_cases = Ok []
  ∧ ¬ raises (source_files cwd_without_cases) "DirectoryNotFoundError".
Proof. split_and!; [done | done |]. simpl. tauto. Qed.

(** C6 (amended).  For an existing, empty directory [cases] the lister
    returns the empty list and raises nothing; a missing [cases] gives the
    same result. *)
Theorem empty_cases_empty_result stdout cwd :
  cases_empty cwd →
  source_files cwd = Ok [] ∧ main stdout cwd = Ok []
  ∧ ∀ cwd', cases_missing cwd' → source_files cwd' = source_files cwd.
Proof.
  intros Hempty.
  assert (H : source_files cwd = Ok []).
  { rewrite source_files_eq. unfold cases_names. by rewrite Hempty. }
  split_and!; [done | by unfold main; rewrite H |].
  intros cwd' Hmissing. rewrite H, source_files_eq.
  unfold cases_names. by rewrite Hmissing.
Qed.

Lemma empty_cases_empty_result_witness :
  cases_empty cwd_empty_cases
  ∧ source_files cwd_empty_cases = Ok []
  ∧ main (fun _ => Ok tt) cwd_empty_cases = Ok []
  ∧ ∀ cwd', cases_missing cwd' → source_files cwd' = source_files cwd_empty_cases.
Proof.
  split; [reflexivity |].
  apply (empty_cases_empty_result (fun _ => Ok tt) cwd_empty_cases). reflexivity.
Defined.

(** C6 (counterexample).  The lister gives the same outcome for an empty
    [cases] and for a missing one. *)
Lemma empty_and_missing_conflated :
  cases_empty cwd_empty_cases
  ∧ cases_missing cwd_without_cases
  ∧ source_files cwd_empty_cases = source_files cwd_without_cases
  ∧ ∀ stdout, main stdout cwd_empty_cases = main stdout cwd_without_cases.
Proof. by split_and!. Qed.

End ListerClaims.

(** ** Paths and file operations *)

Module ConanfileFacts.
Import Conanfile.

Lemma relative_to_Some base p rel : relative_to base p = Some rel ↔ p = base ++ rel.
Proof.
  revert p. induction base as [|b base IH]; intros p; simpl.
  - split; congruence.
  - destruct p as [|x p]; [split; [done | discriminate] |].
    destruct (decide (b = x)) as [-> | Hne].
    + rewrite IH. split; congruence.
    + split; [done | congruence].
Qed.

Lemma relative_to_app base rel : relative_to base (base ++ rel) = Some rel.
Proof. by apply relative_to_Some. Qed.

Lemma lower_app a b : lower (a +:+ b) = lower a +:+ lower b.
Proof.
  induction a as [|c a IH]; [done |].
  change (String (ascii_lower c) (lower (a +:+ b))
          = String (ascii_lower c) (lower a +:+ lower b)).
  by rewrite IH.
Qed.

Lemma lower_ends_with suf s : ends_with suf s → ends_with (lower suf) (lower s).
Proof. intros [pre ->]. exists (lower pre). apply lower_app. Qed.

(** The header directory of the package never is the header directory of
    the sources, nor a directory above it. *)
Lemma header_dst_not_prefix c : ¬ header_dst c `prefix_of` header_src.
Proof.
  unfold header_dst, header_src. intros [k Hk].
  destruct (package_folder c) as [|x [|y [|z [|z' pf]]]]; simplify_eq/=.
  by destruct pf.
Qed.

Lemma header_dst_ne_src c : header_src ≠ header_dst c.
Proof.
  intros H. apply (header_dst_not_prefix c). by rewrite <- H.
Qed.

(** A path that continues [dst] by at least one component and equals
    [src/name] makes [dst] a prefix of [src]. *)
Lemma prefix_of_child (dst src x : path) (name : string) :
  x ≠ [] → dst ++ x = src ++ [name] → dst `prefix_of` src.
Proof.
  intros Hx Heq. destruct (exists_last Hx) as (x' & y & ->).
  rewrite app_assoc in Heq. apply app_inj_tail in Heq as [<- _].
  by apply prefix_app_r.
Qed.

(** The content read by [files !! p] changes only when the entry does. *)
Lemma content_lookup (files : filesystem) (p : path) :
  files !! p = match entries files !! p with
               | Some (Regular c _) => Some c
               | _ => None
               end.
Proof. done. Qed.

(** *** [makedirs] *)

(** [makedirs] leaves every entry as it is, except that it makes a
    directory of a missing path on its way. *)
Lemma makedirs_from_entries done todo files r files' (p : path) :
  makedirs_from done todo files = (r, files') →
  entries files' !! p = entries files !! p
  ∨ (entries files !! p = None ∧ entries files' !! p = Some Directory
     ∧ ∃ a b, a ≠ [] ∧ todo = a ++ b ∧ p = done ++ a).
Proof.
  revert done files. induction todo as [|x todo IH]; intros done files; simpl.
  - intros [= _ <-]. by left.
  - assert (Hshift : ∀ files0,
      (entries files' !! p = entries files0 !! p
       ∨ (entries files0 !! p = None ∧ entries files' !! p = Some Directory
          ∧ ∃ a b, a ≠ [] ∧ todo = a ++ b ∧ p = (done ++ [x]) ++ a)) →
      entries files' !! p = entries files0 !! p
      ∨ (entries files0 !! p = None ∧ entries files' !! p = Some Directory
         ∧ ∃ a b, a ≠ [] ∧ x :: todo = a ++ b ∧ p = done ++ a)).
    { intros files0 [H | (H1 & H2 & a & b & Ha & -> & ->)]; [by left | right].
      split_and!; [done | done |]. exists (x :: a), b.
      split_and!; [done | done | by rewrite <- app_assoc]. }
    destruct (entries files !! (done ++ [x])) as [[c t | ] |] eqn:Hp.
    + intros [= _ <-]. by left.
    + intros H. by apply Hshift, (IH _ _ H).
    + intros H. apply IH in H. unfold put in H. cbn [entries] in H.
      destruct (decide (p = done ++ [x])) as [-> | Hne].
      * right. split_and!; [done | | by exists [x], todo].
        destruct H as [H | (H & _)]; [| by rewrite lookup_insert_eq in H].
        by rewrite H, lookup_insert_eq.
      * apply Hshift. by rewrite lookup_insert_ne in H.
Qed.

Lemma makedirs_entries p0 files r files' (p : path) :
  makedirs p0 files = (r, files') →
  entries files' !! p = entries files !! p
  ∨ (entries files !! p = None ∧ entries files' !! p = Some Directory
     ∧ p ≠ [] ∧ p `prefix_of` p0).
Proof.
  intros H. apply (makedirs_from_entries _ _ _ _ _ p) in H
    as [H | (H1 & H2 & a & b & Ha & -> & ->)]; [by left | right].
  split_and!; [done | done | done | by exists b].
Qed.


(** *** [copy2] *)

Lemma copy2_result c t basename dst files r files' :
  copy2 c t basename dst files = (r, files') →
  let target := if isdir files dst then dst ++ [basename] else dst in
  (r = Ok tt ∧ files' = put target (Regular c t) files
   ∧ entries files !! target ≠ Some Directory)
  ∨ (∃ e, r = Err e ∧ exn_class e = "IsADirectoryError" ∧ files' = files
          ∧ entries files !! target = Some Directory).
Proof.
  unfold copy2. simpl.
  destruct (entries files !! (if isdir files dst then dst ++ [basename] else dst))
    as [[c' t' | ] |] eqn:E; intros [= <- <-]; rewrite ?E; eauto 10.
Qed.

(** *** One file of [copy] *)

(** What [copy_one] changes: it makes directories of missing paths down to
    the parent of the destination, and writes the copy at the destination or
    inside it. *)
Lemma copy_one_entries src dst rel files r files' (p : path) :
  copy_one src dst rel files = (r, files') →
  entries files' !! p = entries files !! p
  ∨ (entries files !! p = None ∧ entries files' !! p = Some Directory
     ∧ p ≠ [] ∧ p `prefix_of` dst ++ removelast rel)
  ∨ ((p = dst ++ rel ∨ p = dst ++ rel ++ [List.last rel ""])
     ∧ entries files !! p ≠ Some Directory
     ∧ ∃ c t, entries files !! (src ++ rel) = Some (Regular c t)
              ∧ entries files' !! p = Some (Regular c t)).
Proof.
  unfold copy_one, place.
  destruct (entries files !! (src ++ rel)) as [[c t | ] |] eqn:Hsrc;
    [| intros [= _ <-]; by left ..].
  destruct (makedirs (dst ++ removelast rel) files) as [[[] | e] files1] eqn:Hmk;
    [| intros [= _ <-]; destruct (makedirs_entries _ _ _ _ p Hmk); tauto].
  pose proof (makedirs_entries _ _ _ _ p Hmk) as Hp.
  assert (Hcopy : ∀ r0 files0,
    copy2 c t (List.last rel "") (dst ++ rel) files1 = (r0, files0) →
    entries files0 !! p = entries files !! p
    ∨ (entries files !! p = None ∧ entries files0 !! p = Some Directory
       ∧ p ≠ [] ∧ p `prefix_of` dst ++ removelast rel)
    ∨ ((p = dst ++ rel ∨ p = dst ++ rel ++ [List.last rel ""])
       ∧ entries files !! p ≠ Some Directory
       ∧ ∃ c0 t0, Some (Regular c t) = Some (Regular c0 t0)
                  ∧ entries files0 !! p = Some (Regular c0 t0))).
  { intros r0 files0 H2. apply copy2_result in H2. cbv zeta in H2.
    destruct H2 as [(_ & -> & Hnd) | (e & _ & _ & -> & _)]; [| tauto].
    unfold put. cbn [entries].
    set (target := if isdir files1 (dst ++ rel)
                   then (dst ++ rel) ++ [List.last rel ""] else dst ++ rel) in *.
    destruct (decide (p = target)) as [-> | Hne].
    - right. right. rewrite lookup_insert_eq. split_and!.
      + subst target. destruct (isdir files1 (dst ++ rel));
          [right; by rewrite <- app_assoc | by left].
      + intros Hd. destruct Hp as [Hp | (Hp & _)]; congruence.
      + by exists c, t.
    - rewrite lookup_insert_ne by done. tauto. }
  destruct (entries files1 !! (dst ++ rel)) as [e |]; [| apply Hcopy].
  destruct (filecmp_cmp c t e); [| apply Hcopy].
  intros [= _ <-]. tauto.
Qed.


(** *** All files of [copy] *)

(** [copy_all] writes regular files below [dst] only, never removes an
    entry, and never replaces a regular file by a directory. *)
Lemma copy_all_entries src dst rels files r files' (p : path) :
  copy_all src dst rels files = (r, files') →
  entries files' !! p = entries files !! p
  ∨ (entries files !! p = None ∧ entries files' !! p = Some Directory)
  ∨ (dst `prefix_of` p ∧ entries files !! p ≠ Some Directory
     ∧ ∃ c t, entries files' !! p = Some (Regular c t)).
Proof.
  revert files. induction rels as [|rel rels IH]; intros files; simpl.
  - intros [= _ <-]. by left.
  - destruct (copy_one src dst rel files) as [[[] | e] files1] eqn:Hone.
    + intros Hall. apply IH in Hall.
      apply (copy_one_entries _ _ _ _ _ _ p) in Hone.
      assert (Hpre : p = dst ++ rel ∨ p = dst ++ rel ++ [List.last rel ""] →
                     dst `prefix_of` p).
      { intros [-> | ->]; by apply prefix_app_r. }
      destruct Hone as [H1 | [(H1 & H1' & _) | (Hp & Hnd & c & t & _ & H1)]];
        destruct Hall as [H2 | [(H2 & H2') | (Hd & H2 & c2 & t2 & H2')]].
      * left. congruence.
      * right. left. split; congruence.
      * right. right. split_and!; [done | congruence | eauto].
      * right. left. split; congruence.
      * congruence.
      * congruence.
      * right. right. split_and!; [auto | done |]. exists c, t. congruence.
      * congruence.
      * right. right. split_and!; [done | done | eauto].
    + intros [= _ <-]. apply (copy_one_entries _ _ _ _ _ _ p) in Hone.
      destruct Hone as [H1 | [(H1 & H1' & _) | (Hp & Hnd & c & t & _ & H1)]];
        [by left | by right; left |].
      right. right. split_and!; [| done | eauto].
      destruct Hp as [-> | ->]; by apply prefix_app_r.
Qed.


(** [package]: the install step, then the copy of the headers, which never
    finds its source and destination folders equal. *)
Lemma package_eq t w :
  package t w
  = match Meson_install t (self w) (fs w) with
    | Err e => (Err e, World (self w) (fs w) (issued w ++ [MesonInstall]))
    | Ok installed =>
        let '(r, files') :=
          copy_all header_src (header_dst (self w))
                   (files_to_copy "*.h" header_src installed) installed in
        (r, World (self w) files' (issued w ++ [MesonInstall]))
    end.
Proof.
  unfold package, external, mbind, M_bind.
  destruct (Meson_install t (self w) (fs w)) as [installed | e]; [| done].
  simpl. unfold copy. simpl.
  destruct (decide (header_src = header_dst (self w))) as [H | _]; [| done].
  by apply header_dst_ne_src in H.
Qed.

(** *** The walk *)

Lemma isdir_nonempty files (p : path) :
  p ≠ [] →
  isdir files p = match entries files !! p with Some Directory => true | _ => false end.
Proof. by destruct p. Qed.

Lemma subtree_entries files (src p : path) :
  src `prefix_of` p → entries (subtree files src) !! p = entries files !! p.
Proof.
  intros Hp. apply option_eq. intros e. unfold subtree. cbn [entries].
  rewrite map_lookup_filter_Some. simpl. tauto.
Qed.

Lemma isdir_subtree files (src p : path) :
  src `prefix_of` p → isdir (subtree files src) p = isdir files p.
Proof.
  intros Hp. destruct p as [|x p]; [done |].
  rewrite !isdir_nonempty by done. by rewrite subtree_entries.
Qed.

Lemma below_dirs_subtree files (src a rel : path) :
  below_dirs (subtree files src) (src ++ a) rel = below_dirs files (src ++ a) rel.
Proof.
  revert a. induction rel as [|x rel IH]; intros a; simpl.
  - by rewrite isdir_subtree by by apply prefix_app_r.
  - rewrite isdir_subtree by by apply prefix_app_r.
    destruct rel as [|y rel]; [done |]. by rewrite <- !app_assoc, IH.
Qed.

(** The walk reaches no file through a regular file. *)
Lemma below_dirs_head files (src : path) x y rel :
  below_dirs files src (x :: y :: rel) = true →
  entries files !! (src ++ [x]) = Some Directory.
Proof.
  simpl. intros [_ H]%andb_true_iff.
  assert (Hd : isdir files (src ++ [x]) = true).
  { destruct rel; simpl in H; apply andb_true_iff in H; tauto. }
  rewrite isdir_nonempty in Hd by by destruct src.
  by destruct (entries files !! (src ++ [x])) as [[] |].
Qed.

Lemma elem_of_walk files (src rel : path) :
  rel ∈ walk files src ↔
  rel ≠ [] ∧ (∃ c t, entries files !! (src ++ rel) = Some (Regular c t))
  ∧ below_dirs files src rel = true.
Proof.
  unfold walk. cbv zeta. rewrite list_elem_of_omap. split.
  - intros ([p e] & Hin & Hrel). apply elem_of_map_to_list in Hin.
    unfold walk_entry in Hrel. cbn [fst snd] in Hrel.
    destruct e as [c t |]; [| done].
    destruct (relative_to src p) as [[|x r] |] eqn:Hp; [done | | done].
    apply relative_to_Some in Hp as ->.
    destruct (below_dirs (subtree files src) src (x :: r)) eqn:Hb; [| done].
    injection Hrel as <-.
    rewrite subtree_entries in Hin by by apply prefix_app_r.
    rewrite <- (app_nil_r src) in Hb at 2. rewrite below_dirs_subtree in Hb.
    rewrite app_nil_r in Hb. eauto 10.
  - intros (Hne & (c & t & Hfile) & Hb).
    exists (src ++ rel, Regular c t). split.
    + apply elem_of_map_to_list. by rewrite subtree_entries by by apply prefix_app_r.
    + unfold walk_entry. cbn [fst snd]. rewrite relative_to_app.
      destruct rel as [|x r]; [done |].
      rewrite <- (app_nil_r src) at 2. rewrite below_dirs_subtree, app_nil_r.
      by rewrite Hb.
Qed.

Lemma NoDup_walk files (src : path) : NoDup (walk files src).
Proof.
  unfold walk. cbv zeta.
  pose proof (NoDup_fst_map_to_list (entries (subtree files src))) as Hnd.
  assert (Hkey : ∀ pe rel,
    walk_entry (subtree files src) src pe = Some rel → pe.1 = src ++ rel).
  { intros [p e] rel. unfold walk_entry. cbn [fst snd].
    destruct e as [c t |]; [| done].
    destruct (relative_to src p) as [[|x r] |] eqn:Hp; [done | | done].
    apply relative_to_Some in Hp as ->.
    destruct (below_dirs _ _ _); [| done]. by intros [= <-]. }
  induction (map_to_list (entries (subtree files src))) as [|pe l IH]; simpl.
  - constructor.
  - apply NoDup_cons in Hnd as [Hpe Hnd].
    destruct (walk_entry (subtree files src) src pe) as [rel |] eqn:Hrel; [| auto].
    apply NoDup_cons. split; [| auto].
    intros (pe' & Hin & Hrel')%list_elem_of_omap. apply Hpe.
    apply list_elem_of_fmap. exists pe'. split; [| done].
    apply Hkey in Hrel, Hrel'. congruence.
Qed.

Lemma elem_of_files_to_copy pattern files (src rel : path) :
  rel ∈ files_to_copy pattern src files ↔
  rel ∈ walk files src
  ∧ fnmatchcase (lower (join_path rel)) (lower pattern) = true.
Proof.
  unfold files_to_copy. rewrite list_elem_of_In, List.filter_In, <- list_elem_of_In.
  done.
Qed.

Lemma NoDup_files_to_copy pattern files (src : path) :
  NoDup (files_to_copy pattern src files).
Proof. apply NoDup_ListNoDup, List.NoDup_filter, NoDup_ListNoDup, NoDup_walk. Qed.

(** *** A file directly in the source folder *)

Section DirectChild.
Variables (src dst : path) (name c : string) (t : nat).
Hypothesis Hdst : ¬ dst `prefix_of` src.

Lemma starts_with_name (rel k : path) :
  rel ≠ [] → removelast rel = name :: k → ∃ r, rel = name :: r.
Proof.
  intros Hne Hk. rewrite (app_removelast_last "" Hne), Hk. eauto.
Qed.

(** The copy of another file leaves the file, its destination and the place
    inside its destination as they are. *)
Lemma copy_one_other rel files r files' :
  rel ≠ [] → (∀ r0, rel ≠ name :: r0) →
  entries files !! (src ++ [name]) = Some (Regular c t) →
  copy_one src dst rel files = (r, files') →
  entries files' !! (src ++ [name]) = entries files !! (src ++ [name])
  ∧ entries files' !! (dst ++ [name]) = entries files !! (dst ++ [name])
  ∧ entries files' !! (dst ++ [name; name]) = entries files !! (dst ++ [name; name]).
Proof.
  intros Hne Hrel Hfile Hone. split_and!.
  - destruct (copy_one_entries _ _ _ _ _ _ (src ++ [name]) Hone)
      as [H | [(H & _) | ([H | H] & _)]]; [done | congruence | |].
    + symmetry in H. by apply prefix_of_child in H.
    + symmetry in H. rewrite app_assoc, <- app_assoc in H.
      apply prefix_of_child in H; [done | by destruct rel].
  - destruct (copy_one_entries _ _ _ _ _ _ (dst ++ [name]) Hone)
      as [H | [(_ & _ & _ & H) | ([H | H] & _)]]; [done | | |].
    + apply prefix_app_inv in H as [k Hk]. simpl in Hk.
      destruct (starts_with_name rel k Hne Hk) as [r0 ->]. by destruct (Hrel r0).
    + apply app_inv_head in H. by destruct (Hrel []).
    + apply app_inv_head in H. destruct rel as [|x [|y rel]]; done.
  - destruct (copy_one_entries _ _ _ _ _ _ (dst ++ [name; name]) Hone)
      as [H | [(_ & _ & _ & H) | ([H | H] & _)]]; [done | | |].
    + apply prefix_app_inv in H as [k Hk]. simpl in Hk.
      destruct (starts_with_name rel (name :: k) Hne Hk) as [r0 ->].
      by destruct (Hrel r0).
    + apply app_inv_head in H. by destruct (Hrel [name]).
    + apply app_inv_head in H. destruct rel as [|x [|y [|z rel]]]; try done.
      injection H as -> _. by destruct (Hrel []).
Qed.

(** The copy of the file itself. *)
Lemma copy_one_self files files' :
  entries files !! (src ++ [name]) = Some (Regular c t) →
  copy_one src dst [name] files = (Ok tt, files') →
  header_copied c t dst name files files'
  ∧ entries files' !! (src ++ [name]) = Some (Regular c t).
Proof.
  intros Hfile Hone.
  assert (Hsrc : entries files' !! (src ++ [name]) = Some (Regular c t)).
  { destruct (copy_one_entries _ _ _ _ _ _ (src ++ [name]) Hone)
      as [H | [(H & _) | ([H | H] & _)]]; [congruence | congruence | |].
    - symmetry in H. by apply prefix_of_child in H.
    - symmetry in H. change (dst ++ [name] ++ [List.last [name] ""])
        with (dst ++ [name; name]) in H. by apply prefix_of_child in H. }
  split; [| done]. revert Hone. unfold copy_one, place, header_copied.
  rewrite Hfile. cbn [removelast List.last]. rewrite app_nil_r.
  destruct (makedirs dst files) as [[[] | e] files1] eqn:Hmk; [| done].
  assert (Hkeep : ∀ k, k ≠ [] →
    entries files1 !! (dst ++ k) = entries files !! (dst ++ k)).
  { intros k Hk.
    destruct (makedirs_entries _ _ _ _ (dst ++ k) Hmk) as [H | (_ & _ & _ & H)];
      [done |].
    apply prefix_length in H. rewrite length_app in H.
    destruct k; [done | simpl in H; lia]. }
  rewrite <- (Hkeep [name]) by done.
  change (dst ++ [name; name]) with (dst ++ [name; name]).
  assert (Hin : entries files1 !! ((dst ++ [name]) ++ [name])
                = entries files !! (dst ++ [name; name])).
  { rewrite <- app_assoc. by apply Hkeep. }
  assert (Hne : dst ++ [name] ≠ []) by by destruct dst.
  assert (Hne2 : dst ++ [name; name] ≠ dst ++ [name]).
  { intros H%app_inv_head. discriminate H. }
  assert (Hcopy : ∀ files0,
    copy2 c t name (dst ++ [name]) files1 = (Ok tt, files0) →
    match entries files1 !! (dst ++ [name]) with
    | Some Directory =>
        entries files0 !! (dst ++ [name]) = Some Directory
        ∧ entries files0 !! (dst ++ [name; name]) = Some (Regular c t)
    | _ => entries files0 !! (dst ++ [name]) = Some (Regular c t)
    end).
  { intros files0 H2. apply copy2_result in H2. cbv zeta in H2.
    rewrite (isdir_nonempty _ _ Hne) in H2.
    destruct H2 as [(_ & -> & _) | (e & [=] & _)].
    unfold put. cbn [entries].
    destruct (entries files1 !! (dst ++ [name])) as [[c' t' | ] |] eqn:E;
      rewrite <- ?app_assoc; cbn [app];
      rewrite ?lookup_insert_eq, ?lookup_insert_ne by done; done. }
  destruct (entries files1 !! (dst ++ [name])) as [[c' t' | ] |] eqn:E.
  - destruct (filecmp_cmp c t (Regular c' t')) eqn:Hcmp.
    + intros [= <-]. done.
    + intros H. by apply Hcopy in H.
  - cbn [filecmp_cmp]. intros H. by apply Hcopy in H.
  - intros H. by apply Hcopy in H.
Qed.

(** All the files: the file is copied in its turn, and the other turns leave
    the copy as it is. *)
Lemma copy_all_direct rels files files' :
  NoDup rels →
  (∀ rel, rel ∈ rels → rel ≠ [] ∧ (rel = [name] ∨ ∀ r0, rel ≠ name :: r0)) →
  [name] ∈ rels →
  entries files !! (src ++ [name]) = Some (Regular c t) →
  copy_all src dst rels files = (Ok tt, files') →
  header_copied c t dst name files files'.
Proof.
  assert (Hskip : ∀ rels files files',
    (∀ rel, rel ∈ rels → rel ≠ [] ∧ ∀ r0, rel ≠ name :: r0) →
    entries files !! (src ++ [name]) = Some (Regular c t) →
    copy_all src dst rels files = (Ok tt, files') →
    entries files' !! (dst ++ [name]) = entries files !! (dst ++ [name])
    ∧ entries files' !! (dst ++ [name; name]) = entries files !! (dst ++ [name; name])).
  { clear rels files files'.
    induction rels as [|rel rels IH]; intros files files' Hrels Hfile; simpl.
    - by intros [= <-].
    - destruct (copy_one src dst rel files) as [[[] | e] files1] eqn:Hone; [| done].
      intros Hall.
      destruct (Hrels rel) as [Hne Hrel]; [by left |].
      destruct (copy_one_other _ _ _ _ Hne Hrel Hfile Hone) as (H1 & H2 & H3).
      apply IH in Hall as [H4 H5]; [split; congruence | | congruence].
      intros rel' Hin. apply Hrels. by right. }
  revert files.
  induction rels as [|rel rels IH]; intros files Hnd Hrels Hin Hfile; simpl.
  - by apply elem_of_nil in Hin.
  - apply NoDup_cons in Hnd as [Hnotin Hnd].
    destruct (copy_one src dst rel files) as [[[] | e] files1] eqn:Hone; [| done].
    intros Hall. destruct (decide (rel = [name])) as [-> | Hother].
    + destruct (copy_one_self _ _ Hfile Hone) as [Hpost Hfile1].
      apply Hskip in Hall as [H1 H2]; [| | done].
      * unfold header_copied in *.
        destruct (entries files !! (dst ++ [name])) as [[c' t' | ] |];
          [congruence | | congruence].
        destruct Hpost. split; congruence.
      * intros rel' Hin'. destruct (Hrels rel') as [Hne [-> | Hrel]];
          [by right | done | done].
    + destruct (Hrels rel) as [Hne [-> | Hrel]]; [by left | done |].
      destruct (copy_one_other _ _ _ _ Hne Hrel Hfile Hone) as (H1 & H2 & H3).
      apply elem_of_cons in Hin as [Hin | Hin]; [congruence |].
      apply IH in Hall; [| done | | done | congruence].
      * unfold header_copied in *. by rewrite <- H2.
      * intros rel' Hin'. apply Hrels. by right.
Qed.

End DirectChild.

(** *** The headers of the recipe *)



(** A file directly in the source header directory whose lower-cased name
    ends in [.h] is copied when [copy] completes. *)
Lemma direct_header_copied (installed files' : filesystem) co name c mt :
  entries installed !! header_src = Some Directory →
  entries installed !! (header_src ++ [name]) = Some (Regular c mt) →
  ends_with ".h" (lower name) →
  copy_all header_src (header_dst co) (files_to_copy "*.h" header_src installed)
           installed = (Ok tt, files') →
  header_copied c mt (header_dst co) name installed files'.
Proof.
  intros Hdir Hfile Hname Hcopy.
  apply (copy_all_direct header_src (header_dst co) name c mt
           (header_dst_not_prefix co)
           (files_to_copy "*.h" header_src installed) installed files'
           (NoDup_files_to_copy _ _ _));
    [| | done | done].
  - intros rel [Hwalk _]%elem_of_files_to_copy.
    apply elem_of_walk in Hwalk as (Hne & _ & Hbelow). split; [done |].
    destruct (decide (rel = [name])) as [-> | Hother]; [by left | right].
    intros [|y r0] ->; [done |].
    apply below_dirs_head in Hbelow. congruence.
  - apply elem_of_files_to_copy. split.
    + apply elem_of_walk. split_and!; [done | eauto |].
      simpl. by rewrite Hdir.
    + change (join_path [name]) with name. change (lower "*.h") with ("*" +:+ ".h").
      rewrite fnmatchcase_star_literal by done. by apply ends_withb_spec.
Qed.

(** *** Running [copy] again *)







Section Rerun.
Variables (src dst : path).











Section Apart.
Hypothesis Hsd : ¬ src `prefix_of` dst.
Hypothesis Hds : ¬ dst `prefix_of` src.




End Apart.

End Rerun.

(** *** The walk sees the source folder only *)



End ConanfileFacts.

(** ** The recipe *)

Section RecipeClaims.
Import Conanfile ConanfileFacts.
Variable t : tools.

(** The class namespace binds [source] to the definition of lines 56-57. *)
Lemma source_is_second_definition : source t = source_56 t.
Proof.
  unfold source, call_method, class_namespace, class_body. simpl.
  by rewrite lookup_insert_eq.
Qed.

Lemma external_issued c tool w :
  issued (snd (external c tool w)) = issued w ++ [c].
Proof. unfold external. by destruct (tool (self w) (fs w)). Qed.


(** A method call reaches one of the six bound methods, the second
    definition of [source] among them and never the first, or fails on an
    unbound name. *)
Lemma call_method_cases method :
  call_method t method = layout ∨ call_method t method = generate t
  ∨ call_method t method = build t ∨ call_method t method = source_56 t
  ∨ call_method t method = package t ∨ call_method t method = package_info
  ∨ call_method t method = raise (Exn "AttributeError" method).
Proof.
  unfold call_method, class_namespace, class_body. simpl.
  rewrite !lookup_insert. repeat case_decide; tauto.
Qed.



(** C1.  Every call of [source] runs the second definition only: it issues
    exactly one external command, the clone of the tagged version without
    any further flag, whatever the state and whether or not the command
    succeeds. *)
Theorem source_issues_one_clone w :
  let cmd := "git clone --branch v0.1.4 https://github.com/fossillogic/fossil-jellyfish" in
  source t w = external (SelfRun cmd) (fun c => run t c cmd) w
  ∧ issued (snd (source t w)) = issued w ++ [SelfRun cmd].
Proof.
  rewrite source_is_second_definition. unfold source_56, self_run.
  split; [done |]. by rewrite external_issued.
Qed.


(** C7.  [package_info] always succeeds and leaves [cpp_info] equal to
    [{libs: ["fossil_jellyfish"], includedirs: ["include"]}], the library
    being the package name; it touches nothing else, so the metadata are the
    same from every state and a second call changes nothing. *)
Theorem package_info_deterministic w :
  package_info w
  = (Ok tt,
     World {| folders := folders (self w);
              cpp_info := cpp_info.mk ["fossil_jellyfish"] ["include"];
              package_folder := package_folder (self w) |}
           (fs w) (issued w))
  ∧ cpp_info.libs (cpp_info (self (snd (package_info w)))) = [name]
  ∧ (∀ w2, cpp_info (self (snd (package_info w2)))
           = cpp_info (self (snd (package_info w))))
  ∧ (package_info ;; package_info) w = package_info w.
Proof. done. Qed.

(** C8.  [layout] always succeeds and leaves the source folder equal to [.]
    and the build folder equal to [builddir], whatever the state before. *)
Theorem layout_fixed_folders w :
  layout w
  = (Ok tt,
     World {| folders := folders.mk "." "builddir";
              cpp_info := cpp_info (self w);
              package_folder := package_folder (self w) |}
           (fs w) (issued w))
  ∧ folders.source (folders (self (snd (layout w)))) = "."
  ∧ folders.build (folders (self (snd (layout w)))) = "builddir".
Proof. done. Qed.

End RecipeClaims.




(** ** Packaging *)

Section PackageClaims.
Import Conanfile ConanfileFacts.

(** C2 (amended).  When [package] completes, every file directly in the
    source header directory whose name ends in [.h] is found again at the
    same name under [include/fossil/ai] of the package folder, whatever the
    install step did: as a copy, with the content and the modification time
    of the header, when that place was free or held a file that does not
    compare equal; as the file that was there when that file has the size
    and the modification time of the header, or its size and content; and
    as a copy inside that place when it was a directory.  Every regular file
    present after the bare install is still a regular file. *)
Theorem package_copies_headers (t : tools) (w w' : world) :
  package t w = (Ok tt, w') →
  ∃ installed,
    Meson_install t (self w) (fs w) = Ok installed
    ∧ (∀ name c mt,
         entries installed !! header_src = Some Directory →
         entries installed !! (header_src ++ [name]) = Some (Regular c mt) →
         ends_with ".h" name →
         header_copied c mt (header_dst (self w)) name installed (fs w'))
    ∧ (∀ name c mt,
         entries installed !! header_src = Some Directory →
         entries installed !! (header_src ++ [name]) = Some (Regular c mt) →
         ends_with ".h" name →
         entries installed !! (header_dst (self w) ++ [name]) = None →
         fs w' !! (header_dst (self w) ++ [name]) = Some c)
    ∧ (∀ p, is_Some (installed !! p) → is_Some (fs w' !! p)).
Proof.
  rewrite package_eq.
  destruct (Meson_install t (self w) (fs w)) as [installed | e]; [| done].
  destruct (copy_all _ _ _ installed) as [r files'] eqn:Hcopy.
  intros [= -> <-]. exists installed. cbn [fs].
  assert (Hmain : ∀ name c mt,
    entries installed !! header_src = Some Directory →
    entries installed !! (header_src ++ [name]) = Some (Regular c mt) →
    ends_with ".h" name →
    header_copied c mt (header_dst (self w)) name installed files').
  { intros name c mt Hdir Hfile Hname.
    apply (direct_header_copied installed files' (self w) name c mt); try done.
    by apply (lower_ends_with ".h"). }
  split_and!; [done | done | |].
  - intros name c mt Hdir Hfile Hname Hfree.
    specialize (Hmain name c mt Hdir Hfile Hname). unfold header_copied in Hmain.
    rewrite Hfree in Hmain. by rewrite content_lookup, Hmain.
  - intros p. rewrite !content_lookup. intros [c Hc].
    destruct (entries installed !! p) as [[c0 t0 | ] |] eqn:E; try done.
    destruct (copy_all_entries _ _ _ _ _ _ p Hcopy)
      as [H | [(H & _) | (_ & _ & c1 & t1 & H)]];
      [by rewrite H, E | congruence | by rewrite H].
Qed.

Lemma package_copies_headers_witness :
  package idle_tools fresh_world
  = (Ok tt, snd (package idle_tools fresh_world))
  ∧ entries source_tree !! header_src = Some Directory
  ∧ entries source_tree !! (header_src ++ ["jellyfish.h"])
    = Some (Regular "/* jellyfish */" 7)
  ∧ ends_with ".h" "jellyfish.h"
  ∧ entries source_tree !! (header_dst (self fresh_world) ++ ["jellyfish.h"]) = None
  ∧ fs (snd (package idle_tools fresh_world))
      !! (header_dst (self fresh_world) ++ ["jellyfish.h"]) = Some "/* jellyfish */".
Proof.
  assert (Hrun : package idle_tools fresh_world
                 = (Ok tt, snd (package idle_tools fresh_world))) by (by vm_compute).
  assert (Hdir : entries source_tree !! header_src = Some Directory)
    by (by vm_compute).
  assert (Hfile : entries source_tree !! (header_src ++ ["jellyfish.h"])
                  = Some (Regular "/* jellyfish */" 7)) by (by vm_compute).
  assert (Hname : ends_with ".h" "jellyfish.h") by (by exists "jellyfish").
  assert (Hfree : entries source_tree
                    !! (header_dst (self fresh_world) ++ ["jellyfish.h"]) = None)
    by (by vm_compute).
  split; [exact Hrun |]. split; [exact Hdir |]. split; [exact Hfile |].
  split; [exact Hname |]. split; [exact Hfree |].
  destruct (package_copies_headers idle_tools fresh_world _ Hrun)
    as (installed & Hinstalled & _ & Hcopy & _).
  injection Hinstalled as <-.
  exact (Hcopy "jellyfish.h" "/* jellyfish */" 7 Hdir Hfile Hname Hfree).
Defined.

(** C2 (counterexample).  The package folder holds, in the place of
    [jellyfish.h], another file of the same size and modification time;
    the install step installs nothing.  [package] completes and leaves that
    file: no file under [include/fossil/ai] has the content of the header. *)
Lemma package_keeps_stale_header :
  fst (package idle_tools stale_world) = Ok tt
  ∧ fs stale_world !! (header_src ++ ["jellyfish.h"]) = Some "/* jellyfish */"
  ∧ regular_files_below (header_dst (self stale_world))
      (fs (snd (package idle_tools stale_world)))
    = [(["pkg"; "include"; "fossil"; "ai"; "jellyfish.h"], "/* JELLYFISH */")].
Proof. split_and!; by vm_compute. Qed.




End PackageClaims.

(** * Further properties *)

(** ** The lister *)

Section ListerProperties.
Import Wildcard WildcardFacts.

Lemma os_path_join_inj dirname : Inj (=) (=) (os_path_join dirname).
Proof.
  intros x y H. unfold os_path_join in H.
  by apply (inj (String.app dirname)), (inj (String.app "/")) in H.
Qed.

Lemma filter_sublist_mono {A} (P : A → Prop) `{!∀ x, Decision (P x)} (l1 l2 : list A) :
  l1 `sublist_of` l2 → filter P l1 `sublist_of` filter P l2.
Proof.
  induction 1 as [| x l1 l2 _ IH | x l1 l2 _ IH]; [done | |];
    rewrite !filter_cons; destruct (decide (P x));
    auto using sublist_skip, sublist_cons.
Qed.

(** X1.  When the names of the entries of [cases] are pairwise distinct, no
    path is listed twice. *)
Theorem source_files_no_duplicate cwd l :
  NoDup (cases_names cwd) → source_files cwd = Ok l → NoDup l.
Proof.
  intros Hnames. rewrite source_files_eq. intros [= <-].
  pose proof (os_path_join_inj "cases") as Hinj.
  apply NoDup_app. split_and!.
  - apply (NoDup_fmap_2 _). by apply NoDup_filter.
  - intros x Hc Hcpp. apply (ends_c_not_cpp x); by eapply listed_paths_end.
  - apply (NoDup_fmap_2 _). by apply NoDup_filter.
Qed.

Lemma source_files_no_duplicate_witness :
  NoDup (cases_names cwd_abct)
  ∧ source_files cwd_abct = Ok ["cases/a.c"; "cases/b.cpp"]
  ∧ NoDup ["cases/a.c"; "cases/b.cpp"].
Proof.
  assert (Hnames : NoDup (cases_names cwd_abct)).
  { apply (bool_decide_unpack _). by vm_compute. }
  split; [exact Hnames |]. split; [reflexivity |].
  exact (source_files_no_duplicate cwd_abct _ Hnames eq_refl).
Defined.

(** X2.  Which paths are listed depends on the names of the entries of
    [cases] only: two working directories whose [cases] hold the same names,
    enumerated in any order and whatever the entries are (files or
    directories, with any content), give lists that are permutations of
    each other. *)
Theorem source_files_same_names cwd cwd' l l' :
  cases_names cwd ≡ₚ cases_names cwd' →
  source_files cwd = Ok l → source_files cwd' = Ok l' →
  l ≡ₚ l'.
Proof.
  intros Hperm. rewrite !source_files_eq. intros [= <-] [= <-].
  by rewrite Hperm.
Qed.

Lemma source_files_same_names_witness :
  cases_names cwd_b_c_a_cpp ≡ₚ cases_names cwd_a_cpp_b_c
  ∧ source_files cwd_b_c_a_cpp = Ok ["cases/b.c"; "cases/a.cpp"]
  ∧ source_files cwd_a_cpp_b_c = Ok ["cases/b.c"; "cases/a.cpp"]
  ∧ ["cases/b.c"; "cases/a.cpp"] ≡ₚ ["cases/b.c"; "cases/a.cpp"].
Proof.
  assert (Hperm : cases_names cwd_b_c_a_cpp ≡ₚ cases_names cwd_a_cpp_b_c)
    by apply Permutation_swap.
  split; [exact Hperm |]. split; [reflexivity |]. split; [reflexivity |].
  exact (source_files_same_names cwd_b_c_a_cpp cwd_a_cpp_b_c _ _ Hperm eq_refl eq_refl).
Defined.

(** X3.  When [cases] exists but is a regular file, the scan fails with an
    [OSError] that [glob] swallows: the lister returns the empty list and
    prints nothing, without raising. *)
Theorem cases_regular_file stdout cwd content :
  resolve ["cases"] cwd = Some (File content) →
  os_scandir cwd "cases" = Err (Exn "NotADirectoryError" "cases")
  ∧ source_files cwd = Ok [] ∧ main stdout cwd = Ok [].
Proof.
  intros Hfile.
  assert (H : source_files cwd = Ok []).
  { rewrite source_files_eq. unfold cases_names. by rewrite Hfile. }
  split_and!; [| done |].
  - unfold os_scandir. by rewrite Hfile.
  - unfold main. by rewrite H.
Qed.

Lemma cases_regular_file_witness :
  resolve ["cases"] (Dir [("cases", File "notes")]) = Some (File "notes")
  ∧ source_files (Dir [("cases", File "notes")]) = Ok [].
Proof.
  split; [reflexivity |].
  exact (proj1 (proj2 (cases_regular_file (fun _ => Ok tt)
                         (Dir [("cases", File "notes")]) "notes" eq_refl))).
Defined.

(** X4.  The lister is monotone: entries added to [cases] never remove a
    listed path nor change the relative order of the paths listed before;
    the old list is a sublist of the new one when the old names are a
    sublist of the new names. *)
Theorem source_files_monotone cwd cwd' l l' :
  cases_names cwd `sublist_of` cases_names cwd' →
  source_files cwd = Ok l → source_files cwd' = Ok l' →
  l `sublist_of` l'.
Proof.
  intros Hsub. rewrite !source_files_eq. intros [= <-] [= <-].
  apply sublist_app; apply fmap_sublist; by apply filter_sublist_mono.
Qed.

Lemma source_files_monotone_witness :
  cases_names cwd_b_c_a_cpp `sublist_of` cases_names cwd_grown
  ∧ source_files cwd_b_c_a_cpp = Ok ["cases/b.c"; "cases/a.cpp"]
  ∧ source_files cwd_grown
    = Ok ["cases/z.c"; "cases/b.c"; "cases/m.c"; "cases/a.cpp"; "cases/k.cpp"]
  ∧ ["cases/b.c"; "cases/a.cpp"]
    `sublist_of` ["cases/z.c"; "cases/b.c"; "cases/m.c"; "cases/a.cpp"; "cases/k.cpp"].
Proof.
  assert (Hsub : cases_names cwd_b_c_a_cpp `sublist_of` cases_names cwd_grown).
  { apply sublist_cons, sublist_skip, sublist_cons, sublist_skip, sublist_cons.
    done. }
  split; [exact Hsub |]. split; [reflexivity |]. split; [reflexivity |].
  exact (source_files_monotone cwd_b_c_a_cpp cwd_grown _ _ Hsub eq_refl eq_refl).
Defined.

End ListerProperties.

(** ** The recipe *)

Section RecipeProperties.
Import Conanfile ConanfileFacts.
Variable t : tools.

(** X5.  Whatever method is called, in whatever state, the calls issued
    before stay, and the calls added are one of six sequences: none, the
    toolchain generation, configure alone (when it fails), configure then
    build, the install, or the clone of the tagged version without
    [--depth].  The shallow clone of the first definition of [source] is
    never issued. *)
Theorem methods_issue_known_calls method (w : world) :
  ∃ new,
    issued (snd (call_method t method w)) = issued w ++ new
    ∧ new ∈ [ []; [ToolchainGenerate]; [MesonConfigure];
              [MesonConfigure; MesonBuild]; [MesonInstall];
              [SelfRun "git clone --branch v0.1.4 https://github.com/fossillogic/fossil-jellyfish"] ].
Proof.
  destruct (call_method_cases t method)
    as [-> | [-> | [-> | [-> | [-> | [-> | ->]]]]]].
  - exists []. split; [by rewrite app_nil_r | set_solver].
  - exists [ToolchainGenerate]. split; [apply external_issued | set_solver].
  - unfold build, external, mbind, M_bind.
    destruct (Meson_configure t (self w) (fs w)) as [fs1 | e]; simpl.
    + exists [MesonConfigure; MesonBuild]. split; [| set_solver].
      destruct (Meson_build t (self w) fs1); simpl; by rewrite <- app_assoc.
    + exists [MesonConfigure]. split; [done | set_solver].
  - eexists. split; [apply external_issued | set_solver].
  - exists [MesonInstall]. split; [| set_solver]. rewrite package_eq.
    destruct (Meson_install t (self w) (fs w)) as [installed | e]; [| done].
    by destruct (copy_all _ _ _ installed).
  - exists []. split; [by rewrite app_nil_r | set_solver].
  - exists []. split; [by rewrite app_nil_r | set_solver].
Qed.


(** X10.  The extension is matched without regard to case: when [package]
    completes, a file directly in the source header directory whose
    lower-cased name ends in [.h], such as [API.H], is copied to the same
    name in the package header folder when that place was free. *)
Theorem package_ignores_case (w w' : world) (installed : filesystem)
    (name c : string) (mt : nat) :
  Meson_install t (self w) (fs w) = Ok installed →
  package t w = (Ok tt, w') →
  entries installed !! header_src = Some Directory →
  entries installed !! (header_src ++ [name]) = Some (Regular c mt) →
  ends_with ".h" (lower name) →
  entries installed !! (header_dst (self w) ++ [name]) = None →
  entries (fs w') !! (header_dst (self w) ++ [name]) = Some (Regular c mt).
Proof.
  intros Hinstall. rewrite package_eq, Hinstall.
  destruct (copy_all _ _ _ installed) as [r files'] eqn:Hcopy.
  intros [= -> <-] Hdir Hfile Hname Hfree. cbn [fs].
  pose proof (direct_header_copied installed files' (self w) name c mt
                Hdir Hfile Hname Hcopy) as H.
  unfold header_copied in H. by rewrite Hfree in H.
Qed.

End RecipeProperties.

Section RecipeWitnesses.
Import Conanfile ConanfileFacts.


Lemma package_ignores_case_witness :
  Meson_install idle_tools (self upper_case_world) (fs upper_case_world)
  = Ok (fs upper_case_world)
  ∧ package idle_tools upper_case_world
    = (Ok tt, snd (package idle_tools upper_case_world))
  ∧ entries (fs upper_case_world) !! header_src = Some Directory
  ∧ entries (fs upper_case_world) !! (header_src ++ ["API.H"])
    = Some (Regular "/* api */" 3)
  ∧ ends_with ".h" (lower "API.H")
  ∧ entries (fs upper_case_world) !! (header_dst (self upper_case_world) ++ ["API.H"])
    = None
  ∧ entries (fs (snd (package idle_tools upper_case_world)))
      !! (header_dst (self upper_case_world) ++ ["API.H"])
    = Some (Regular "/* api */" 3).
Proof.
  assert (Hrun : package idle_tools upper_case_world
                 = (Ok tt, snd (package idle_tools upper_case_world)))
    by (by vm_compute).
  assert (Hdir : entries (fs upper_case_world) !! header_src = Some Directory)
    by (by vm_compute).
  assert (Hfile : entries (fs upper_case_world) !! (header_src ++ ["API.H"])
                  = Some (Regular "/* api */" 3)) by (by vm_compute).
  assert (Hname : ends_with ".h" (lower "API.H")) by (by exists "api").
  assert (Hfree : entries (fs upper_case_world)
                    !! (header_dst (self upper_case_world) ++ ["API.H"]) = None)
    by (by vm_compute).
  split; [reflexivity |]. split; [exact Hrun |]. split; [exact Hdir |].
  split; [exact Hfile |]. split; [exact Hname |]. split; [exact Hfree |].
  exact (package_ignores_case idle_tools upper_case_world _ (fs upper_case_world)
           "API.H" "/* api */" 3 eq_refl Hrun Hdir Hfile Hname Hfree).
Defined.

End RecipeWitnesses.
